(** * LinearEqualityToPenalty: equality constraints folded into the objective

    A shallow embedding of
    [qiskit/optimization/converters/linear_equality_to_penalty.py].

    Numbers.  The converter only adds, multiplies, squares, negates and takes
    absolute values of Python numbers ([int] and [float]).  They are embedded
    as exact canonical rationals [Qc]: a Python [int] is an integral rational,
    a [float] is the rational it denotes.  Rounding, overflow, infinities and
    NaN are outside this model; every statement below is a statement about
    the exact arithmetic the code spells out.

    Objects.  Problems are Python objects that the converter copies, creates
    and mutates in place, so they live in a heap of problem values addressed
    by location; the converter's own attributes and the log are the rest of
    the state.  A raised exception leaves the state as it was at the raise. *)

From Stdlib Require Import QArith Qcanon Qcabs.
From stdpp Require Import base numbers option list strings gmap fin_maps.

Local Open Scope Qc_scope.

(** ** Numbers *)

(** [float.is_integer()]; on an [int] the test [isinstance(t, float)] already
    fails, and an [int] is integral. *)
Definition is_integer (t : Qc) : bool := (Qden (this t) =? 1)%positive.

(** [isinstance(term, float) and not term.is_integer()] *)
Definition non_integral_float (t : Qc) : bool := negb (is_integer t).

(** [math.fsum]: the sum of the items without intermediate rounding. *)
Definition fsum (l : list Qc) : Qc := foldr Qcplus 0 l.

(** ** The data model of the problem container *)

Module VarType.
Inductive t := CONTINUOUS | BINARY | INTEGER.
End VarType.

Module ConstraintSense.
Inductive t := LE | GE | EQ.

Definition eqb (a b : t) : bool :=
  match a, b with
  | LE, LE | GE, GE | EQ, EQ => true
  | _, _ => false
  end.
End ConstraintSense.

Module ObjSense.
Inductive t := MINIMIZE | MAXIMIZE.

(** Modelled from the spec: the numeric value of the objective sense, whose
    enumeration is declared outside this file: +1 for Minimize and -1 for
    Maximize. *)
Definition value (s : t) : Qc :=
  match s with
  | MINIMIZE => 1
  | MAXIMIZE => - 1
  end.
End ObjSense.

Module QuadraticProgramStatus.
Inductive t := VALID | INFEASIBLE.
End QuadraticProgramStatus.

Module OptimizationResultStatus.
Inductive t := SUCCESS | FAILURE | INFEASIBLE.
End OptimizationResultStatus.

Module Var.
Record t := mk {
  name : string;
  vartype : VarType.t;
  lowerbound : Qc;
  upperbound : Qc
}.
End Var.

Module Constraint.
Record t := mk {
  linear : gmap nat Qc;   (* the row, as [linear.to_dict()] gives it *)
  sense : ConstraintSense.t;
  rhs : Qc
}.
End Constraint.

Module Objective.
Record t := mk {
  constant : Qc;
  linear : gmap nat Qc;               (* as [linear.to_dict()] gives it *)
  quadratic : gmap (nat * nat) Qc;    (* as [quadratic.to_dict()] gives it *)
  sense : ObjSense.t
}.
End Objective.

Module QuadraticProgram.
Record t := mk {
  name : string;
  variables : list Var.t;
  objective : Objective.t;
  linear_constraints : list Constraint.t;
  status : QuadraticProgramStatus.t
}.

(** The constructor and the mutators of the container live outside this
    file; what follows is what the specification's data model says of them. *)

(** Modelled from the spec: [QuadraticProgram()], a problem with no variable
    and no constraint, valid, that minimizes the zero objective. *)
Definition init : t :=
  mk "" [] (Objective.mk 0 ∅ ∅ ObjSense.MINIMIZE) [] QuadraticProgramStatus.VALID.

(** Modelled from the spec: the assignment [qp.name = n]. *)
Definition set_name (n : string) (qp : t) : t :=
  mk n (variables qp) (objective qp) (linear_constraints qp) (status qp).

(** Modelled from the spec: a new variable goes to the end of the ordered
    sequence of variables. *)
Definition add_variable (v : Var.t) (qp : t) : t :=
  mk (name qp) (variables qp ++ [v]) (objective qp) (linear_constraints qp) (status qp).

(** Modelled from the spec: [qp.continuous_var(lb, ub, n)]. *)
Definition continuous_var (lb ub : Qc) (n : string) : t → t :=
  add_variable (Var.mk n VarType.CONTINUOUS lb ub).

(** Modelled from the spec: [qp.binary_var(n)]; a binary variable is bounded
    by 0 and 1. *)
Definition binary_var (n : string) : t → t :=
  add_variable (Var.mk n VarType.BINARY 0 1).

(** Modelled from the spec: [qp.integer_var(lb, ub, n)]. *)
Definition integer_var (lb ub : Qc) (n : string) : t → t :=
  add_variable (Var.mk n VarType.INTEGER lb ub).

(** Modelled from the spec: installing an objective. *)
Definition set_objective (o : Objective.t) (qp : t) : t :=
  mk (name qp) (variables qp) o (linear_constraints qp) (status qp).

(** Modelled from the spec: [qp.minimize(c, l, q)]. *)
Definition minimize (c : Qc) (l : gmap nat Qc) (q : gmap (nat * nat) Qc) : t → t :=
  set_objective (Objective.mk c l q ObjSense.MINIMIZE).

(** Modelled from the spec: [qp.maximize(c, l, q)]. *)
Definition maximize (c : Qc) (l : gmap nat Qc) (q : gmap (nat * nat) Qc) : t → t :=
  set_objective (Objective.mk c l q ObjSense.MAXIMIZE).
End QuadraticProgram.

Module OptimizationResult.
Record t := mk {
  x : list Qc;
  fval : Qc;
  status : OptimizationResultStatus.t
}.
End OptimizationResult.

(** ** Exceptions, state and the monad the methods run in *)

Inductive exception :=
  | QiskitOptimizationError (msg : string)
  | AttributeError     (* an attribute read on [None] *)
  | IndexError         (* a list index out of range *)
  | DanglingReference. (* a location outside the heap; no Python program has one *)

Definition msg_inequality : string :=
  "An inequality constraint exists. The method supports only equality constraints.".
Definition msg_dimension : string :=
  "The number of variables in the passed result differs from that of the original problem.".
Definition msg_float_coefficient : string :=
  "Warning: Using %f for the penalty coefficient because a float coefficient exists in constraints. \nThe value could be too small. If so, set the penalty coefficient manually.".

(** The names the specification gives to the two errors. *)
Definition InvalidConstraintKind : exception := QiskitOptimizationError msg_inequality.
Definition DimensionMismatch : exception := QiskitOptimizationError msg_dimension.

(** References to problem objects: positions in the heap. *)
Abbreviation loc := nat (only parsing).

(** The attributes of one converter instance. *)
Record LinearEqualityToPenalty := mkConverter {
  _src : option loc;
  _dst : option loc;
  _dst_name : option string;
  _penalty : option Qc
}.

(** [LinearEqualityToPenalty(penalty, name)] *)
Definition __init__ (penalty : option Qc) (name : option string) : LinearEqualityToPenalty :=
  mkConverter None None name penalty.

Record state := mkState {
  self : LinearEqualityToPenalty;
  heap : list QuadraticProgram.t;
  warnings : list (string * Qc)   (* [logger.warning(format, argument)] calls, oldest first *)
}.

Definition M (A : Type) : Type := state → (exception + A) * state.

Global Instance M_ret : MRet M := λ A a σ, (inr a, σ).
Global Instance M_bind : MBind M := λ A B f m σ,
  match m σ with
  | (inl e, σ') => (inl e, σ')
  | (inr a, σ') => f a σ'
  end.

Definition raise {A} (e : exception) : M A := λ σ, (inl e, σ).
Definition get_self : M LinearEqualityToPenalty := λ σ, (inr (self σ), σ).
Definition put_self (c : LinearEqualityToPenalty) : M unit :=
  λ σ, (inr (), mkState c (heap σ) (warnings σ)).
Definition logger_warning (fmt : string) (arg : Qc) : M unit :=
  λ σ, (inr (), mkState (self σ) (heap σ) (warnings σ ++ [(fmt, arg)])).

(** Reading the object a reference points to. *)
Definition deref (l : loc) : M QuadraticProgram.t := λ σ,
  match heap σ !! l with
  | Some qp => (inr qp, σ)
  | None => (inl DanglingReference, σ)
  end.

(** Creating an object: it gets the next free location. *)
Definition new_object (qp : QuadraticProgram.t) : M loc := λ σ,
  (inr (length (heap σ)), mkState (self σ) (heap σ ++ [qp]) (warnings σ)).

(** Mutating the object at [l] in place. *)
Definition mutate (l : loc) (f : QuadraticProgram.t → QuadraticProgram.t) : M unit := λ σ,
  match heap σ !! l with
  | Some qp => (inr (), mkState (self σ) (<[l := f qp]> (heap σ)) (warnings σ))
  | None => (inl DanglingReference, σ)
  end.

(** [copy.deepcopy(op)]: a new object with the contents of [op]; the
    variables, objective and constraints are part of the problem value, so
    the copy shares nothing with the original. *)
Definition deepcopy (op : loc) : M loc :=
  qp ← deref op; new_object qp.

(** [self._src], read where the code goes on to read an attribute of it. *)
Definition src_object : M QuadraticProgram.t :=
  c ← get_self;
  match _src c with
  | Some l => deref l
  | None => raise AttributeError
  end.

(** [for a in l: acc = body(acc, a)], the loop variables threaded through. *)
Fixpoint for_loop {A B} (l : list A) (acc : B) (body : B → A → M B) : M B :=
  match l with
  | [] => mret acc
  | a :: l' => acc' ← body acc a; for_loop l' acc' body
  end.

(** ** The converter *)

Definition set_src (l : option loc) (c : LinearEqualityToPenalty) : LinearEqualityToPenalty :=
  mkConverter l (_dst c) (_dst_name c) (_penalty c).
Definition set_dst (l : option loc) (c : LinearEqualityToPenalty) : LinearEqualityToPenalty :=
  mkConverter (_src c) l (_dst_name c) (_penalty c).

(** [d.values()] of a dictionary. *)
Definition dict_values `{Countable K} {A} (d : gmap K A) : list A := (map_to_list d).*2.

(** [d.get(k, 0.0)] *)
Definition dict_get `{Countable K} (d : gmap K Qc) (k : K) : Qc := default 0 (d !! k).

Definition default_penalty : Qc := Qc_of_Z 100000.

(** The rhs and the row coefficients of every constraint, as the first loop
    of [_auto_define_penalty] collects them. *)
Definition constraint_terms (constraints : list Constraint.t) : list Qc :=
  foldl (λ terms constraint,
           (terms ++ [Constraint.rhs constraint])
             ++ dict_values (Constraint.linear constraint))
        [] constraints.

Definition _auto_define_penalty : M Qc :=
  src ← src_object;
  let terms := constraint_terms (QuadraticProgram.linear_constraints src) in
  if existsb non_integral_float terms then
    logger_warning msg_float_coefficient default_penalty;;
    mret default_penalty
  else
    let penalties := [1]%list in
    let penalties :=
      penalties ++ (Qcabs <$> dict_values (Objective.linear (QuadraticProgram.objective src))) in
    let penalties :=
      penalties ++ (Qcabs <$> dict_values (Objective.quadratic (QuadraticProgram.objective src))) in
    mret (fsum penalties).

(** The loop over [row.items()] that updates the linear terms.  A dictionary
    is iterated once per key; the order of the keys does not show in the
    result (see [accumulate_linear_lookup]). *)
Definition accumulate_linear (sense penalty constant : Qc) (row : gmap nat Qc)
    (linear : gmap nat Qc) : gmap nat Qc :=
  map_fold (λ j coef linear,
              <[j := dict_get linear j + sense * penalty * - 2 * coef * constant]> linear)
           linear row.

(** The two nested loops over [row.items()] that update the quadratic terms. *)
Definition accumulate_quadratic (sense penalty : Qc) (row : gmap nat Qc)
    (quadratic : gmap (nat * nat) Qc) : gmap (nat * nat) Qc :=
  map_fold (λ j coef_1 quadratic,
              map_fold (λ k coef_2 quadratic,
                          let tup := (j, k) in
                          <[tup := dict_get quadratic tup + sense * penalty * coef_1 * coef_2]>
                            quadratic)
                       quadratic row)
           quadratic row.

(** The local variables [offset], [linear], [quadratic] of [encode]. *)
Definition terms : Type := Qc * gmap nat Qc * gmap (nat * nat) Qc.

(** What one equality constraint adds to the three of them. *)
Definition penalty_terms (sense penalty : Qc) (acc : terms) (constraint : Constraint.t) : terms :=
  let '(offset, linear, quadratic) := acc in
  let constant := Constraint.rhs constraint in
  let row := Constraint.linear constraint in
  (* constant parts of penalty*(Constant-func)**2: penalty*(Constant**2) *)
  let offset := offset + sense * penalty * constant ^ 2 in
  (* linear parts of penalty*(Constant-func)**2: penalty*(-2*Constant*func) *)
  let linear := accumulate_linear sense penalty constant row linear in
  (* quadratic parts of penalty*(Constant-func)**2: penalty*(func**2) *)
  let quadratic := accumulate_quadratic sense penalty row quadratic in
  (offset, linear, quadratic).

(** The body of the loop over the constraints. *)
Definition penalize (sense penalty : Qc) (acc : terms) (constraint : Constraint.t) : M terms :=
  if negb (ConstraintSense.eqb (Constraint.sense constraint) ConstraintSense.EQ) then
    raise InvalidConstraintKind
  else
    mret (penalty_terms sense penalty acc constraint).

(** The body of the loop over the variables.  [Var.vartype] has the three
    members the chain of tests names, so its final [else: raise] is dead. *)
Definition declare_variable (dst : loc) (x : Var.t) : M unit :=
  match Var.vartype x with
  | VarType.CONTINUOUS =>
      mutate dst (QuadraticProgram.continuous_var (Var.lowerbound x) (Var.upperbound x) (Var.name x))
  | VarType.BINARY =>
      mutate dst (QuadraticProgram.binary_var (Var.name x))
  | VarType.INTEGER =>
      mutate dst (QuadraticProgram.integer_var (Var.lowerbound x) (Var.upperbound x) (Var.name x))
  end.

Definition encode (op : loc) : M loc :=
  (* create empty QuadraticProgram model *)
  src ← deepcopy op;
  c ← get_self; put_self (set_src (Some src) c);;
  dst ← new_object QuadraticProgram.init;
  c ← get_self; put_self (set_dst (Some dst) c);;
  (* If penalty is None, set the penalty coefficient by _auto_define_penalty() *)
  c ← get_self;
  penalty ← match _penalty c with
            | None => _auto_define_penalty
            | Some penalty => mret penalty
            end;
  (* set problem name *)
  src_qp ← src_object;
  match _dst_name c with
  | None => mutate dst (QuadraticProgram.set_name (QuadraticProgram.name src_qp))
  | Some name => mutate dst (QuadraticProgram.set_name name)
  end;;
  (* set variables *)
  for_loop (QuadraticProgram.variables src_qp) () (λ _ x, declare_variable dst x);;
  (* get original objective terms *)
  let offset := Objective.constant (QuadraticProgram.objective src_qp) in
  let linear := Objective.linear (QuadraticProgram.objective src_qp) in
  let quadratic := Objective.quadratic (QuadraticProgram.objective src_qp) in
  let sense := ObjSense.value (Objective.sense (QuadraticProgram.objective src_qp)) in
  (* convert linear constraints into penalty terms *)
  '(offset, linear, quadratic) ←
    for_loop (QuadraticProgram.linear_constraints src_qp) (offset, linear, quadratic)
             (penalize sense penalty);
  match Objective.sense (QuadraticProgram.objective src_qp) with
  | ObjSense.MINIMIZE => mutate dst (QuadraticProgram.minimize offset linear quadratic)
  | ObjSense.MAXIMIZE => mutate dst (QuadraticProgram.maximize offset linear quadratic)
  end;;
  mret dst.

(** The [penalty] and [name] properties. *)
Definition penalty : M (option Qc) := c ← get_self; mret (_penalty c).
Definition set_penalty (penalty : option Qc) : M unit :=
  c ← get_self; put_self (mkConverter (_src c) (_dst c) (_dst_name c) penalty).
Definition name : M (option string) := c ← get_self; mret (_dst_name c).
Definition set_name (name : option string) : M unit :=
  c ← get_self; put_self (mkConverter (_src c) (_dst c) name (_penalty c)).

Section decode.
(** The substitution routine of the problem container is outside this
    file; [decode] is stated for any such routine.  It works on a copy and
    leaves its receiver as it was. *)
Variable substitute_variables :
  QuadraticProgram.t → gmap string Qc → QuadraticProgram.t.

Definition decode (result : OptimizationResult.t) : M OptimizationResult.t :=
  src ← src_object;
  if negb (length (OptimizationResult.x result) =? length (QuadraticProgram.variables src))%nat
  then raise DimensionMismatch
  else
    (* Substitute variables to obtain the function value and feasibility *)
    let variables := QuadraticProgram.variables src in
    substitute_dict ←
      for_loop (seq 0 (length (OptimizationResult.x result))) (∅ : gmap string Qc)
        (λ substitute_dict i,
           match variables !! i, OptimizationResult.x result !! i with
           | Some v, Some xi => mret (<[Var.name v := xi]> substitute_dict)
           | _, _ => raise IndexError
           end);
    let substituted_qp := substitute_variables src substitute_dict in
    let new_x := OptimizationResult.x result in
    (* Set the new function value *)
    let new_fval := Objective.constant (QuadraticProgram.objective substituted_qp) in
    (* Set the new status of optimization result *)
    let new_status :=
      match QuadraticProgram.status substituted_qp with
      | QuadraticProgramStatus.VALID => OptimizationResultStatus.SUCCESS
      | QuadraticProgramStatus.INFEASIBLE => OptimizationResultStatus.INFEASIBLE
      end in
    mret (OptimizationResult.mk new_x new_fval new_status).
End decode.

(** ** The meaning of rows and objectives *)

(** The sum of [coef * w k] over the entries [k: coef] of a dictionary. *)
Definition weighted_sum `{Countable K} (w : K → Qc) (d : gmap K Qc) : Qc :=
  map_fold (λ k coef acc, acc + coef * w k) 0 d.

(** The evaluation of rows and objectives lives outside this file.  An
    assignment gives every variable, by index, its value. *)

(** Modelled from the spec: the left-hand side of a constraint at an
    assignment, the sum of [c_j * a_j] over its row. *)
Definition row_value (a : nat → Qc) (row : gmap nat Qc) : Qc := weighted_sum a row.

(** Modelled from the spec: the product of the values of a pair of variables. *)
Definition pair_value (a : nat → Qc) (jk : nat * nat) : Qc := a jk.1 * a jk.2.

(** Modelled from the spec: the value of an objective at an assignment: the
    constant, the linear coefficients times their variables, the quadratic
    coefficients times their pairs.  Both orderings of a pair may hold an
    entry, and each entry counts. *)
Definition evaluate (o : Objective.t) (a : nat → Qc) : Qc :=
  Objective.constant o + weighted_sum a (Objective.linear o)
    + weighted_sum (pair_value a) (Objective.quadratic o).


(** ** The substitution routine *)

(** Modelled from the spec: the assignment by index that a dictionary from
    variable names to values stands for. *)
Definition assignment_of (variables : list Var.t) (d : gmap string Qc) (j : nat) : Qc :=
  match variables !! j with
  | Some v => default 0 (d !! Var.name v)
  | None => 0
  end.

(** Modelled from the spec: the assignment meets a constraint of any sense. *)
Definition holds (a : nat → Qc) (c : Constraint.t) : bool :=
  let lhs := row_value a (Constraint.linear c) in
  match Constraint.sense c with
  | ConstraintSense.EQ => bool_decide (lhs = Constraint.rhs c)
  | ConstraintSense.LE => bool_decide (lhs ≤ Constraint.rhs c)
  | ConstraintSense.GE => bool_decide (Constraint.rhs c ≤ lhs)
  end.

(** Modelled from the spec: a substitution routine that meets the contract
    asked of it.  Under a complete assignment the objective folds to the
    value of the source objective, no variable or constraint is left, and
    the status says whether every constraint holds. *)
Definition substitute_all (src : QuadraticProgram.t) (d : gmap string Qc) :
    QuadraticProgram.t :=
  let a := assignment_of (QuadraticProgram.variables src) d in
  let o := QuadraticProgram.objective src in
  QuadraticProgram.mk (QuadraticProgram.name src) []
    (Objective.mk (evaluate o a) ∅ ∅ (Objective.sense o)) []
    (if forallb (holds a) (QuadraticProgram.linear_constraints src)
     then QuadraticProgramStatus.VALID else QuadraticProgramStatus.INFEASIBLE).

(** ** The vocabulary of the statements *)

(** Every constraint is an equality; some constraint is not. *)
Definition all_equalities (constraints : list Constraint.t) : Prop :=
  ∀ c, c ∈ constraints → Constraint.sense c = ConstraintSense.EQ.

Definition some_inequality (constraints : list Constraint.t) : Prop :=
  ∃ c, c ∈ constraints ∧ Constraint.sense c ≠ ConstraintSense.EQ.

(** A constraint whose rhs or some row coefficient is a non-integral float. *)
Definition fractional (c : Constraint.t) : Prop :=
  non_integral_float (Constraint.rhs c) = true
  ∨ ∃ j coef, Constraint.linear c !! j = Some coef ∧ non_integral_float coef = true.

(** The variable one branch of the loop over the variables declares. *)
Definition declared (x : Var.t) : Var.t :=
  match Var.vartype x with
  | VarType.CONTINUOUS => Var.mk (Var.name x) VarType.CONTINUOUS (Var.lowerbound x) (Var.upperbound x)
  | VarType.BINARY => Var.mk (Var.name x) VarType.BINARY 0 1
  | VarType.INTEGER => Var.mk (Var.name x) VarType.INTEGER (Var.lowerbound x) (Var.upperbound x)
  end.

Definition has_fractional_term (src : QuadraticProgram.t) : bool :=
  existsb non_integral_float (constraint_terms (QuadraticProgram.linear_constraints src)).

(** The list handed to [fsum]. *)
Definition penalties_of (src : QuadraticProgram.t) : list Qc :=
  ([1]%list ++ (Qcabs <$> dict_values (Objective.linear (QuadraticProgram.objective src))))
    ++ (Qcabs <$> dict_values (Objective.quadratic (QuadraticProgram.objective src))).

Definition log_fallback (σ : state) : state :=
  mkState (self σ) (heap σ) (warnings σ ++ [(msg_float_coefficient, default_penalty)]).

(** The penalty an [encode] call works with, and the state its choice leaves. *)
Definition penalty_used (c : LinearEqualityToPenalty) (src : QuadraticProgram.t) : Qc :=
  match _penalty c with
  | Some penalty => penalty
  | None => if has_fractional_term src then default_penalty else fsum (penalties_of src)
  end.

Definition warnings_after (c : LinearEqualityToPenalty) (src : QuadraticProgram.t)
    (w : list (string * Qc)) : list (string * Qc) :=
  match _penalty c with
  | Some _ => w
  | None =>
      if has_fractional_term src then w ++ [(msg_float_coefficient, default_penalty)] else w
  end.

(** The destination as it stands when the loop over the constraints starts. *)
Definition destination_shell (c : LinearEqualityToPenalty) (src : QuadraticProgram.t) :
    QuadraticProgram.t :=
  QuadraticProgram.mk
    (match _dst_name c with None => QuadraticProgram.name src | Some name => name end)
    (declared <$> QuadraticProgram.variables src)
    (QuadraticProgram.objective QuadraticProgram.init) []
    QuadraticProgramStatus.VALID.

(** The three locals when the loop over the constraints has run through. *)
Definition penalized_terms (penalty : Qc) (src : QuadraticProgram.t) : terms :=
  let o := QuadraticProgram.objective src in
  foldl (penalty_terms (ObjSense.value (Objective.sense o)) penalty)
        (Objective.constant o, Objective.linear o, Objective.quadratic o)
        (QuadraticProgram.linear_constraints src).

Definition destination (c : LinearEqualityToPenalty) (src : QuadraticProgram.t) :
    QuadraticProgram.t :=
  let '(offset, linear, quadratic) := penalized_terms (penalty_used c src) src in
  QuadraticProgram.set_objective
    (Objective.mk offset linear quadratic (Objective.sense (QuadraticProgram.objective src)))
    (destination_shell c src).

Definition converter_after (σ : state) : LinearEqualityToPenalty :=
  mkConverter (Some (length (heap σ))) (Some (S (length (heap σ))))
    (_dst_name (self σ)) (_penalty (self σ)).








(** The dictionary the loop of [decode] builds from the variables and [x]. *)
Definition substitute_dict_of (variables : list Var.t) (x : list Qc) : gmap string Qc :=
  foldl (λ d vx, <[Var.name vx.1 := vx.2]> d) ∅ (zip variables x).

(** What [decode] answers for a retained source [src], given the substitution
    routine. *)
Definition decoded
    (substitute_variables : QuadraticProgram.t → gmap string Qc → QuadraticProgram.t)
    (src : QuadraticProgram.t) (result : OptimizationResult.t) :
    exception + OptimizationResult.t :=
  if decide (length (OptimizationResult.x result) = length (QuadraticProgram.variables src))
  then
    let substituted_qp :=
      substitute_variables src
        (substitute_dict_of (QuadraticProgram.variables src) (OptimizationResult.x result)) in
    inr (OptimizationResult.mk (OptimizationResult.x result)
           (Objective.constant (QuadraticProgram.objective substituted_qp))
           (match QuadraticProgram.status substituted_qp with
            | QuadraticProgramStatus.VALID => OptimizationResultStatus.SUCCESS
            | QuadraticProgramStatus.INFEASIBLE => OptimizationResultStatus.INFEASIBLE
            end))
  else inl DimensionMismatch.

(** ** Example problems *)

(** One binary variable [x], minimize [x], subject to [x = 1]. *)
Definition problem_x : QuadraticProgram.t :=
  QuadraticProgram.mk "P" [Var.mk "x" VarType.BINARY 0 1]
    (Objective.mk 0 {[ 0%nat := 1 ]} ∅ ObjSense.MINIMIZE)
    [Constraint.mk {[ 0%nat := 1 ]} ConstraintSense.EQ 1]
    QuadraticProgramStatus.VALID.

(** Two integer variables, maximize [3 y - z + y z], subject to [y + z = 2]
    and then [y <= 1]. *)
Definition problem_yz : QuadraticProgram.t :=
  QuadraticProgram.mk "Q"
    [Var.mk "y" VarType.INTEGER 0 (Qc_of_Z 5); Var.mk "z" VarType.INTEGER 0 (Qc_of_Z 5)]
    (Objective.mk 0 {[ 0%nat := Qc_of_Z 3; 1%nat := - 1 ]} {[ (0%nat, 1%nat) := 1 ]}
       ObjSense.MAXIMIZE)
    [Constraint.mk {[ 0%nat := 1; 1%nat := 1 ]} ConstraintSense.EQ 2;
     Constraint.mk {[ 0%nat := 1 ]} ConstraintSense.LE 1]
    QuadraticProgramStatus.VALID.


(** A converter fresh from its constructor, and the caller's problem. *)
Definition start (penalty : option Qc) (qp : QuadraticProgram.t) : state :=
  mkState (__init__ penalty None) [qp] [].

(** ** The vocabulary of the further properties *)





(** The state with the object at [l] replaced, as a caller who holds a
    reference to it can do. *)
Definition caller_mutates (l : loc) (qp : QuadraticProgram.t) (σ : state) : state :=
  mkState (self σ) (<[l := qp]> (heap σ)) (warnings σ).


(** One binary variable and no constraint. *)
Definition problem_free : QuadraticProgram.t :=
  QuadraticProgram.mk "F" [Var.mk "x" VarType.BINARY 0 1]
    (Objective.mk 1 {[ 0%nat := 2 ]} {[ (0%nat, 0%nat) := - 1 ]} ObjSense.MAXIMIZE)
    [] QuadraticProgramStatus.VALID.

(** * Proofs *)

(** ** Running the primitives *)

Ltac run :=
  unfold mbind, mret, M_bind, M_ret, raise, get_self, put_self, logger_warning,
    new_object; cbn [fst snd self heap warnings].

Lemma deref_Some l qp σ :
  heap σ !! l = Some qp → deref l σ = (inr qp, σ).
Proof. unfold deref. by intros ->. Qed.

Lemma mutate_Some l f qp σ :
  heap σ !! l = Some qp →
  mutate l f σ = (inr (), mkState (self σ) (<[l := f qp]> (heap σ)) (warnings σ)).
Proof. unfold mutate. by intros ->. Qed.

Lemma heap_insert_last (h : list QuadraticProgram.t) qp qp' :
  <[length h := qp']> (h ++ [qp]) = h ++ [qp'].
Proof.
  replace (length h) with (length h + 0)%nat by lia.
  by rewrite insert_app_r.
Qed.

Lemma heap_lookup_last (h : list QuadraticProgram.t) qp :
  (h ++ [qp]) !! length h = Some qp.
Proof. by rewrite lookup_app_r, Nat.sub_diag by lia. Qed.

Lemma heap_lookup_second (h : list QuadraticProgram.t) a b :
  (h ++ [a; b]) !! S (length h) = Some b.
Proof. rewrite lookup_app_r by lia. by replace (S (length h) - length h)%nat with 1%nat by lia. Qed.

Lemma heap_insert_second (h : list QuadraticProgram.t) a b b' :
  <[S (length h) := b']> (h ++ [a; b]) = h ++ [a; b'].
Proof.
  replace (S (length h)) with (length h + 1)%nat by lia.
  by rewrite insert_app_r.
Qed.

Lemma declare_variable_mutate dst x :
  declare_variable dst x = mutate dst (QuadraticProgram.add_variable (declared x)).
Proof. unfold declare_variable, declared. by destruct (Var.vartype x). Qed.

Lemma declare_variables_run dst xs : ∀ qp σ,
  heap σ !! dst = Some qp →
  for_loop xs () (λ _ x, declare_variable dst x) σ =
    (inr (),
     mkState (self σ)
       (<[dst := foldl (λ qp x, QuadraticProgram.add_variable (declared x) qp) qp xs]> (heap σ))
       (warnings σ)).
Proof.
  induction xs as [|x xs IH]; intros qp σ Hd; cbn [for_loop foldl].
  - run. rewrite list_insert_id by done. by destruct σ.
  - run. rewrite declare_variable_mutate, (mutate_Some _ _ qp) by done.
    rewrite (IH (QuadraticProgram.add_variable (declared x) qp)); cbn [self heap warnings].
    + by rewrite list_insert_insert_eq.
    + apply list_lookup_insert_eq. by eapply lookup_lt_Some.
Qed.

Lemma add_variables_fold xs : ∀ qp,
  foldl (λ qp x, QuadraticProgram.add_variable (declared x) qp) qp xs =
    QuadraticProgram.mk (QuadraticProgram.name qp)
      (QuadraticProgram.variables qp ++ (declared <$> xs))
      (QuadraticProgram.objective qp) (QuadraticProgram.linear_constraints qp)
      (QuadraticProgram.status qp).
Proof.
  induction xs as [|x xs IH]; intros qp; cbn [foldl fmap list_fmap].
  - rewrite app_nil_r. by destruct qp.
  - rewrite IH. unfold QuadraticProgram.add_variable; cbn. by rewrite <-app_assoc.
Qed.

Lemma sense_eqb_EQ s :
  ConstraintSense.eqb s ConstraintSense.EQ = true ↔ s = ConstraintSense.EQ.
Proof. by destruct s. Qed.

Lemma penalize_loop_ok sense penalty cs : ∀ acc σ,
  all_equalities cs →
  for_loop cs acc (penalize sense penalty) σ =
    (inr (foldl (penalty_terms sense penalty) acc cs), σ).
Proof.
  induction cs as [|c cs IH]; intros acc σ Hall; cbn [for_loop foldl]; [done|].
  run. unfold penalize at 1.
  assert (Constraint.sense c = ConstraintSense.EQ) as -> by (apply Hall; left).
  cbn. run. apply IH. intros c' Hc'. apply Hall. by right.
Qed.

Lemma penalize_loop_raise sense penalty cs : ∀ acc σ,
  some_inequality cs →
  for_loop cs acc (penalize sense penalty) σ = (inl InvalidConstraintKind, σ).
Proof.
  induction cs as [|c cs IH]; intros acc σ (c' & Hin & Hne).
  - by apply elem_of_nil in Hin.
  - cbn [for_loop]. run. unfold penalize at 1.
    destruct (ConstraintSense.eqb (Constraint.sense c) ConstraintSense.EQ) eqn:E; cbn.
    + run. apply IH. exists c'. split; [|done].
      apply elem_of_cons in Hin as [->|]; [|done].
      by apply sense_eqb_EQ in E.
    + done.
Qed.

Lemma equalities_or_not cs : all_equalities cs ∨ some_inequality cs.
Proof.
  induction cs as [|c cs [IH|(c' & Hin & Hne)]].
  - left. intros c Hc. by apply elem_of_nil in Hc.
  - destruct (ConstraintSense.eqb (Constraint.sense c) ConstraintSense.EQ) eqn:E.
    + left. intros c' [->|Hc']%elem_of_cons; [by apply sense_eqb_EQ|by apply IH].
    + right. exists c. split; [left|]. intros Heq%sense_eqb_EQ. congruence.
  - right. exists c'. split; [by right|done].
Qed.

(** ** What [_auto_define_penalty] and [encode] compute *)

Lemma src_object_run σ l src :
  _src (self σ) = Some l → heap σ !! l = Some src → src_object σ = (inr src, σ).
Proof. intros Hl Hsrc. unfold src_object. run. rewrite Hl. by apply deref_Some. Qed.

Lemma auto_define_penalty_run σ l src :
  _src (self σ) = Some l → heap σ !! l = Some src →
  _auto_define_penalty σ =
    if has_fractional_term src then (inr default_penalty, log_fallback σ)
    else (inr (fsum (penalties_of src)), σ).
Proof.
  intros Hl Hsrc. unfold _auto_define_penalty. run.
  rewrite (src_object_run σ l src) by done.
  unfold has_fractional_term. by destruct (existsb _ _).
Qed.

Lemma encode_run σ op src :
  heap σ !! op = Some src →
  encode op σ =
    let σ1 := mkState (converter_after σ)
                (heap σ ++ [src; destination_shell (self σ) src])
                (warnings_after (self σ) src (warnings σ)) in
    match for_loop (QuadraticProgram.linear_constraints src)
            (Objective.constant (QuadraticProgram.objective src),
             Objective.linear (QuadraticProgram.objective src),
             Objective.quadratic (QuadraticProgram.objective src))
            (penalize (ObjSense.value (Objective.sense (QuadraticProgram.objective src)))
                      (penalty_used (self σ) src)) σ1 with
    | (inl e, σ2) => (inl e, σ2)
    | (inr _, _) =>
        (inr (S (length (heap σ))),
         mkState (converter_after σ) (heap σ ++ [src; destination (self σ) src])
           (warnings_after (self σ) src (warnings σ)))
    end.
Proof.
  intros Hop. destruct σ as [[s d n p] h w]. cbn [heap self warnings] in *.
  set (l_src := length h). set (l_dst := S (length h)).
  assert (((h ++ [src]) ++ [QuadraticProgram.init]) !! l_src = Some src) as Hsrc.
  { rewrite lookup_app_l by (rewrite length_app; cbn; lia). apply heap_lookup_last. }
  assert (length (h ++ [src]) = l_dst) as Hlen by (rewrite length_app; cbn; lia).
  unfold encode, deepcopy. run.
  rewrite (deref_Some op src) by done. run. rewrite Hlen.
  unfold set_dst, set_src, converter_after, destination, penalty_used, warnings_after;
    cbn [_src _dst _dst_name _penalty heap self warnings].
  assert (h0_dst : ((h ++ [src]) ++ [QuadraticProgram.init]) !! l_dst
                   = Some QuadraticProgram.init).
  { rewrite <-Hlen. apply heap_lookup_last. }
  assert (∀ qp, <[l_dst := qp]> ((h ++ [src]) ++ [QuadraticProgram.init]) = h ++ [src; qp])
    as Hh.
  { intros qp. rewrite <-Hlen, heap_insert_last. by rewrite <-app_assoc. }
  destruct p as [penalty|]; [|rewrite (auto_define_penalty_run _ l_src src) by done;
                               destruct (has_fractional_term src)];
    cbn [log_fallback heap self warnings].
  all: rewrite (src_object_run _ l_src src) by done.
  all: destruct n as [name|];
    rewrite (mutate_Some _ _ QuadraticProgram.init) by done;
    cbn [heap self warnings].
  all: erewrite declare_variables_run;
    cbn [heap self warnings];
    [|apply list_lookup_insert_eq; by eapply lookup_lt_Some].
  all: rewrite list_insert_insert_eq, add_variables_fold, Hh;
    unfold destination, penalized_terms, penalty_used, destination_shell;
    cbn [_penalty _dst_name QuadraticProgram.set_name QuadraticProgram.init
         QuadraticProgram.name QuadraticProgram.variables QuadraticProgram.objective
         QuadraticProgram.linear_constraints QuadraticProgram.status app].
  all: destruct (equalities_or_not (QuadraticProgram.linear_constraints src)) as [Hok|Hne];
    [rewrite !penalize_loop_ok by done|by rewrite !penalize_loop_raise by done].
  all: destruct (foldl _ _ _) as [[offset linear] quadratic].
  all: subst l_src l_dst.
  all: destruct (Objective.sense (QuadraticProgram.objective src));
    erewrite mutate_Some by (cbn [heap]; apply heap_lookup_second);
    cbn [heap self warnings]; rewrite heap_insert_second; reflexivity.
Qed.

Lemma encode_ok σ op src :
  heap σ !! op = Some src →
  all_equalities (QuadraticProgram.linear_constraints src) →
  encode op σ =
    (inr (S (length (heap σ))),
     mkState (converter_after σ) (heap σ ++ [src; destination (self σ) src])
       (warnings_after (self σ) src (warnings σ))).
Proof.
  intros Hop Hall. rewrite (encode_run σ op src Hop). cbv zeta.
  by rewrite penalize_loop_ok.
Qed.

Lemma encode_raise σ op src :
  heap σ !! op = Some src →
  some_inequality (QuadraticProgram.linear_constraints src) →
  encode op σ =
    (inl InvalidConstraintKind,
     mkState (converter_after σ) (heap σ ++ [src; destination_shell (self σ) src])
       (warnings_after (self σ) src (warnings σ))).
Proof.
  intros Hop Hne. rewrite (encode_run σ op src Hop). cbv zeta.
  by rewrite penalize_loop_raise.
Qed.

(** ** The accumulation loops, key by key *)




Section weighted_sum.
Context `{Countable K} (w : K → Qc).
Implicit Types d : gmap K Qc.



End weighted_sum.





(** ** The whole loop over the constraints, in closed form *)





(** ** Decoding *)

Section decode_facts.
Variable substitute_variables : QuadraticProgram.t → gmap string Qc → QuadraticProgram.t.

Lemma substitute_loop_run (variables : list Var.t) (x : list Qc) (σ : state) :
length x = length variables →
∀ n d, (n ≤ length x)%nat →
for_loop (seq (length x - n) n) d
  (λ (substitute_dict : gmap string Qc) (i : nat),
     match variables !! i, x !! i with
     | Some v, Some xi => mret (<[Var.name v := xi]> substitute_dict)
     | _, _ => raise IndexError
     end) σ =
(inr (foldl (λ d vx, <[Var.name vx.1 := vx.2]> d) d
        (zip (drop (length x - n) variables) (drop (length x - n) x))), σ).
Proof.
intros Hlen. induction n as [|n IH]; intros d Hn; cbn [seq for_loop].
- rewrite Nat.sub_0_r, (drop_all x). by rewrite zip_with_nil_r.
- run.
  destruct (lookup_lt_is_Some_2 x (length x - S n)) as [xi Hxi]; [lia|].
  destruct (lookup_lt_is_Some_2 variables (length x - S n)) as [v Hv]; [lia|].
  rewrite Hv, Hxi.
  rewrite (drop_S _ _ _ Hv), (drop_S _ _ _ Hxi). cbn [zip_with foldl fst snd].
  replace (S (length x - S n)) with (length x - n)%nat by lia.
  apply IH. lia.
Qed.

Lemma decode_run σ l src result :
_src (self σ) = Some l → heap σ !! l = Some src →
decode substitute_variables result σ = (decoded substitute_variables src result, σ).
Proof.
intros Hl Hsrc. unfold decode, decoded. run.
rewrite (src_object_run σ l src) by done.
destruct (decide _) as [Hlen|Hlen].
- rewrite (proj2 (Nat.eqb_eq _ _) Hlen). cbn [negb].
  pose proof (substitute_loop_run (QuadraticProgram.variables src)
                (OptimizationResult.x result) σ Hlen
                (length (OptimizationResult.x result)) ∅ (le_n _)) as Hloop.
  rewrite Nat.sub_diag in Hloop. cbn [drop] in Hloop.
  unfold mbind, mret, M_bind, M_ret, raise in *. rewrite Hloop. done.
- by rewrite (proj2 (Nat.eqb_neq _ _) Hlen).
Qed.
End decode_facts.

(** ** Facts about the penalty heuristic *)

Lemma elem_of_dict_values `{Countable K} {A} (d : gmap K A) (v : A) :
  v ∈ dict_values d ↔ ∃ k, d !! k = Some v.
Proof.
  unfold dict_values. rewrite list_elem_of_fmap. split.
  - intros ([k v'] & -> & Hkv). exists k. by apply elem_of_map_to_list.
  - intros (k & Hk). exists (k, v). split; [done|]. by apply elem_of_map_to_list.
Qed.

Lemma elem_of_constraint_terms (cs : list Constraint.t) (t : Qc) :
  t ∈ constraint_terms cs ↔
    ∃ c, c ∈ cs ∧ (t = Constraint.rhs c ∨ t ∈ dict_values (Constraint.linear c)).
Proof.
  unfold constraint_terms.
  assert (∀ acc,
    t ∈ foldl (λ terms constraint,
                 (terms ++ [Constraint.rhs constraint])
                   ++ dict_values (Constraint.linear constraint)) acc cs ↔
    t ∈ acc ∨ ∃ c, c ∈ cs ∧ (t = Constraint.rhs c ∨ t ∈ dict_values (Constraint.linear c)))
    as Hgen.
  { induction cs as [|c cs IH]; intros acc; cbn [foldl].
    - split; [by left|]. intros [?|(c & Hc & _)]; [done|]. by apply elem_of_nil in Hc.
    - rewrite IH, !elem_of_app, list_elem_of_singleton. split.
      + intros [[[?|?]|?]|(c' & Hc' & Ht)]; [by left|right; exists c..|].
        * split; [left|by left].
        * split; [left|by right].
        * right. exists c'. split; [by right|done].
      + intros [?|(c' & [->|Hc']%elem_of_cons & Ht)]; [tauto|tauto|].
        right. by exists c'. }
  rewrite Hgen. split; [|by right]. intros [Hnil|?]; [|done]. by apply elem_of_nil in Hnil.
Qed.

Lemma has_fractional_term_true (src : QuadraticProgram.t) :
  has_fractional_term src = true ↔
    ∃ c, c ∈ QuadraticProgram.linear_constraints src ∧ fractional c.
Proof.
  unfold has_fractional_term, fractional. rewrite existsb_exists. split.
  - intros (t & Ht%list_elem_of_In%elem_of_constraint_terms & Hfrac).
    destruct Ht as (c & Hc & [->|(j & Hj)%elem_of_dict_values]); exists c;
      (split; [done|]); [by left|right; by exists j, t].
  - intros (c & Hc & [Hfrac|(j & coef & Hj & Hfrac)]).
    + exists (Constraint.rhs c). split; [|done].
      apply list_elem_of_In, elem_of_constraint_terms. eauto.
    + exists coef. split; [|done].
      apply list_elem_of_In, elem_of_constraint_terms. exists c. split; [done|].
      right. apply elem_of_dict_values. eauto.
Qed.







Lemma substitute_dict_skip (variables : list Var.t) : ∀ (x : list Qc) (d : gmap string Qc) k,
  k ∉ Var.name <$> variables →
  foldl (λ d vx, <[Var.name vx.1 := vx.2]> d) d (zip variables x) !! k = d !! k.
Proof.
  induction variables as [|v variables IH]; intros [|xi x] d k Hk; cbn; try done.
  rewrite fmap_cons, not_elem_of_cons in Hk. destruct Hk as [Hne Hk].
  rewrite IH by done. by rewrite lookup_insert_ne.
Qed.

Lemma substitute_dict_lookup (variables : list Var.t) (x : list Qc) i v xi :
  NoDup (Var.name <$> variables) →
  variables !! i = Some v → x !! i = Some xi →
  substitute_dict_of variables x !! Var.name v = Some xi.
Proof.
  unfold substitute_dict_of. generalize (∅ : gmap string Qc).
  revert x i. induction variables as [|v0 variables IH]; intros x i d Hnd Hv Hxi; [done|].
  destruct x as [|x0 x]; [done|]. rewrite fmap_cons, NoDup_cons in Hnd.
  destruct Hnd as [Hfresh Hnd]. destruct i as [|i]; cbn in *.
  - injection Hv as ->. injection Hxi as ->.
    rewrite substitute_dict_skip by done. apply lookup_insert_eq.
  - by eapply IH.
Qed.

(** Whatever [encode] answers, it leaves the converter pointing at a fresh
    copy of its argument and at a fresh destination, and every object that
    was there before is as it was. *)
Lemma encode_state σ op src :
  heap σ !! op = Some src →
  ∃ r qp,
    encode op σ =
      (r, mkState (converter_after σ) (heap σ ++ [src; qp])
            (warnings_after (self σ) src (warnings σ))).
Proof.
  intros Hop.
  destruct (equalities_or_not (QuadraticProgram.linear_constraints src)) as [Hok|Hne].
  - rewrite (encode_ok σ op src) by done. eauto.
  - rewrite (encode_raise σ op src) by done. eauto.
Qed.

(** ** The one-variable problem, end to end *)

(** Minimize [x] subject to [x = 1], penalty 2: the destination minimizes
    [2 - 3 x + 2 x^2]. *)
Example encode_problem_x :
  ∃ σ',
    encode 0%nat (start (Some 2) problem_x) = (inr 2%nat, σ')
    ∧ heap σ' !! 2%nat =
        Some (QuadraticProgram.mk "P" [Var.mk "x" VarType.BINARY 0 1]
                (Objective.mk 2 {[ 0%nat := Qc_of_Z (-3) ]} {[ (0%nat, 0%nat) := 2 ]}
                   ObjSense.MINIMIZE)
                [] QuadraticProgramStatus.VALID).
Proof.
  eexists. split; [by vm_compute|]. vm_compute.
  repeat (f_equal; try (apply Qc_is_canon; reflexivity)).
Qed.

(** Decoding [x = 1] against it gives the value 1 and Success; decoding
    [x = 0] gives the value 0 and Infeasible. *)
Example decode_problem_x_feasible :
  (decode substitute_all
     (OptimizationResult.mk [1]%list (Qc_of_Z 9) OptimizationResultStatus.FAILURE)
     (encode 0%nat (start (Some 2) problem_x)).2).1
  = inr (OptimizationResult.mk [1]%list 1 OptimizationResultStatus.SUCCESS).
Proof. vm_compute. repeat (f_equal; try (apply Qc_is_canon; reflexivity)). Qed.

Example decode_problem_x_infeasible :
  (decode substitute_all
     (OptimizationResult.mk [0]%list (Qc_of_Z 9) OptimizationResultStatus.SUCCESS)
     (encode 0%nat (start (Some 2) problem_x)).2).1
  = inr (OptimizationResult.mk [0]%list 0 OptimizationResultStatus.INFEASIBLE).
Proof. vm_compute. repeat (f_equal; try (apply Qc_is_canon; reflexivity)). Qed.

(** With no penalty configured, [encode] answers and builds what it would
    with the penalty [_auto_define_penalty] returns for the source. *)
Lemma encode_uses_auto_penalty (σ : state) (op : loc) (src : QuadraticProgram.t) :
  heap σ !! op = Some src → _penalty (self σ) = None →
  ∃ p,
    (∀ σ1 l, _src (self σ1) = Some l → heap σ1 !! l = Some src →
             (_auto_define_penalty σ1).1 = inr p)
    ∧ (encode op σ).1 = (encode op (set_penalty (Some p) σ).2).1
    ∧ heap (encode op σ).2 = heap (encode op (set_penalty (Some p) σ).2).2.
Proof.
  intros Hop Hnone. exists (penalty_used (self σ) src).
  assert (penalty_used (self σ) src
          = if has_fractional_term src then default_penalty else fsum (penalties_of src))
    as Hp by (unfold penalty_used; by rewrite Hnone).
  split.
  - intros σ1 l Hl Hsrc. rewrite (auto_define_penalty_run σ1 l src), Hp by done.
    by destruct (has_fractional_term src).
  - set (σp := (set_penalty (Some (penalty_used (self σ) src)) σ).2).
    assert (heap σp !! op = Some src) as Hop' by done.
    assert (destination_shell (self σp) src = destination_shell (self σ) src) as Hshell by done.
    assert (destination (self σp) src = destination (self σ) src) as Hdest by done.
    destruct (equalities_or_not (QuadraticProgram.linear_constraints src)) as [Hok|Hne].
    + rewrite (encode_ok σ op src), (encode_ok σp op src) by done.
      cbn [fst snd heap]. by rewrite Hdest.
    + rewrite (encode_raise σ op src), (encode_raise σp op src) by done.
      cbn [fst snd heap]. by rewrite Hshell.
Qed.

(** ** Properties of the converter *)











(** C5.  With no penalty configured, [encode] on the one-variable problem
    computes the penalty 2 and uses it (the destination's offset is
    [0 + 1 * 2 * 1^2] and its linear coefficient [1 + 1 * 2 * (-2 * 1 * 1)]),
    yet the [penalty] property still answers [None] afterwards: the penalty
    used is not stored.  The retained source is a new object equal to the
    caller's, and the caller's is as it was. *)
Theorem encode_forgets_auto_penalty :
  ∃ σ' qp,
    encode 0%nat (start None problem_x) = (inr 2%nat, σ')
    ∧ heap σ' !! 2%nat = Some qp
    ∧ Objective.constant (QuadraticProgram.objective qp) = 2
    ∧ Objective.linear (QuadraticProgram.objective qp) !! 0%nat = Some (Qc_of_Z (-3))
    ∧ penalty_used (self (start None problem_x)) problem_x = 2
    ∧ penalty σ' = (inr None, σ')
    ∧ _src (self σ') = Some 1%nat
    ∧ heap σ' !! 1%nat = Some problem_x
    ∧ heap σ' !! 0%nat = Some problem_x.
Proof.
  eexists _, _. split; [by vm_compute|]. split; [reflexivity|].
  split; [apply Qc_is_canon; reflexivity|].
  split; [vm_compute; f_equal; apply Qc_is_canon; reflexivity|].
  split; [apply Qc_is_canon; reflexivity|].
  repeat split.
Qed.

(** The parts of C5 that hold for every call: the converter ends up with a
    new object that equals the argument, whatever it held before; the
    configured penalty is as it was; nothing that existed is changed. *)
Lemma encode_retains_copy (σ : state) (op : loc) (src : QuadraticProgram.t) :
  heap σ !! op = Some src →
  ∃ r σ',
    encode op σ = (r, σ')
    ∧ _src (self σ') = Some (length (heap σ))
    ∧ heap σ !! length (heap σ) = None
    ∧ heap σ' !! length (heap σ) = Some src
    ∧ _penalty (self σ') = _penalty (self σ)
    ∧ (∀ l qp, heap σ !! l = Some qp → heap σ' !! l = Some qp).
Proof.
  intros Hop. destruct (encode_state σ op src Hop) as (r & qp & ->).
  eexists _, _. split; [done|]. cbn [self heap converter_after _src _penalty].
  split; [done|]. split; [by apply lookup_ge_None|].
  split; [|split; [done|]].
  - rewrite (lookup_app_r (heap σ)), Nat.sub_diag by lia. done.
  - intros l qp' Hl. by apply lookup_app_l_Some.
Qed.

(** What [encode] declares in the destination, whatever the bounds the
    source records: continuous and integer variables with their bounds,
    binary variables through [binary_var], which takes a name only. *)
Lemma encode_declares_variables (σ : state) (op : loc) (src : QuadraticProgram.t) :
  heap σ !! op = Some src →
  ∃ r σ' l qp,
    encode op σ = (r, σ') ∧ _dst (self σ') = Some l ∧ heap σ' !! l = Some qp
    ∧ QuadraticProgram.variables qp = declared <$> QuadraticProgram.variables src.
Proof.
  intros Hop.
  destruct (equalities_or_not (QuadraticProgram.linear_constraints src)) as [Hok|Hne].
  - rewrite (encode_ok σ op src) by done. eexists _, _, _, _. split; [done|].
    cbn [self heap converter_after _dst]. split; [done|].
    split; [apply heap_lookup_second|].
    unfold destination. by destruct (penalized_terms _ _) as [[offset linear] quadratic].
  - rewrite (encode_raise σ op src) by done. eexists _, _, _, _. split; [done|].
    cbn [self heap converter_after _dst]. split; [done|].
    split; [apply heap_lookup_second|done].
Qed.



(** C7.  With a source retained and a result of as many values as the source
    has variables, [decode], for any substitution routine, changes no state
    and returns a result with the [x] of its argument, with the objective
    constant of the problem the routine returns for the retained source as
    [fval], and with status Success if that problem is Valid and Infeasible
    otherwise.  The dictionary handed to the routine maps the name of each
    variable to the value at its position (names being unique). *)
Theorem decode_result
    (substitute_variables : QuadraticProgram.t → gmap string Qc → QuadraticProgram.t)
    (σ : state) (l : loc) (src : QuadraticProgram.t) (result : OptimizationResult.t) :
  _src (self σ) = Some l → heap σ !! l = Some src →
  length (OptimizationResult.x result) = length (QuadraticProgram.variables src) →
  let substitute_dict :=
    substitute_dict_of (QuadraticProgram.variables src) (OptimizationResult.x result) in
  let substituted_qp := substitute_variables src substitute_dict in
  (∃ new_result,
     decode substitute_variables result σ = (inr new_result, σ)
     ∧ OptimizationResult.x new_result = OptimizationResult.x result
     ∧ OptimizationResult.fval new_result
       = Objective.constant (QuadraticProgram.objective substituted_qp)
     ∧ OptimizationResult.status new_result
       = match QuadraticProgram.status substituted_qp with
         | QuadraticProgramStatus.VALID => OptimizationResultStatus.SUCCESS
         | QuadraticProgramStatus.INFEASIBLE => OptimizationResultStatus.INFEASIBLE
         end)
  ∧ (NoDup (Var.name <$> QuadraticProgram.variables src) →
     ∀ i v xi, QuadraticProgram.variables src !! i = Some v →
               OptimizationResult.x result !! i = Some xi →
               substitute_dict !! Var.name v = Some xi).
Proof.
  intros Hl Hsrc Hlen substitute_dict substituted_qp. split.
  - rewrite (decode_run substitute_variables σ l src) by done.
    unfold decoded. rewrite decide_True by done. eexists. split; [done|]. done.
  - intros Hnd i v xi Hv Hxi. by eapply substitute_dict_lookup.
Qed.

Lemma decode_result_witness :
  let σ := mkState (mkConverter (Some 0%nat) None None None) [problem_x] [] in
  let result := OptimizationResult.mk [1]%list (Qc_of_Z 9) OptimizationResultStatus.SUCCESS in
  _src (self σ) = Some 0%nat ∧ heap σ !! 0%nat = Some problem_x
  ∧ length (OptimizationResult.x result) = length (QuadraticProgram.variables problem_x)
  ∧ ∃ new_result,
      decode substitute_all result σ = (inr new_result, σ)
      ∧ OptimizationResult.x new_result = [1]%list
      ∧ OptimizationResult.fval new_result
        = Objective.constant (QuadraticProgram.objective
            (substitute_all problem_x (substitute_dict_of (QuadraticProgram.variables problem_x) [1]%list))).
Proof.
  intros σ result. split; [reflexivity|]. split; [reflexivity|]. split; [reflexivity|].
  destruct (decode_result substitute_all σ 0%nat problem_x result eq_refl eq_refl eq_refl)
    as [(new_result & Hrun & Hx & Hfval & _) _].
  exists new_result. split; [exact Hrun|]. split; [exact Hx|exact Hfval].
Defined.

(** C8.  With a source retained, [decode] raises the dimension error exactly
    when the result has a number of values other than the source's number of
    variables; it then returns no result and changes no state. *)
Theorem decode_raises_iff_mismatch
    (substitute_variables : QuadraticProgram.t → gmap string Qc → QuadraticProgram.t)
    (σ : state) (l : loc) (src : QuadraticProgram.t) (result : OptimizationResult.t) :
  _src (self σ) = Some l → heap σ !! l = Some src →
  ((∃ σ', decode substitute_variables result σ = (inl DimensionMismatch, σ'))
     ↔ length (OptimizationResult.x result) ≠ length (QuadraticProgram.variables src))
  ∧ (length (OptimizationResult.x result) ≠ length (QuadraticProgram.variables src) →
     decode substitute_variables result σ = (inl DimensionMismatch, σ))
  ∧ (∀ e σ', decode substitute_variables result σ = (inl e, σ') →
             e = DimensionMismatch ∧ σ' = σ).
Proof.
  intros Hl Hsrc. rewrite (decode_run substitute_variables σ l src) by done.
  unfold decoded. destruct (decide _) as [Hlen|Hlen].
  - split; [split|split]; try done. by intros (σ' & ?).
  - split; [split|split]; try done.
    + eauto.
    + intros e σ' [= <- <-]. done.
Qed.

Lemma decode_raises_iff_mismatch_witness :
  let σ := mkState (mkConverter (Some 0%nat) None None None) [problem_x] [] in
  let result := OptimizationResult.mk [1; 0] 0 OptimizationResultStatus.SUCCESS in
  _src (self σ) = Some 0%nat ∧ heap σ !! 0%nat = Some problem_x
  ∧ decode substitute_all result σ = (inl DimensionMismatch, σ).
Proof.
  intros σ result. split; [reflexivity|]. split; [reflexivity|].
  refine (proj1 (proj2 (decode_raises_iff_mismatch substitute_all σ 0%nat problem_x result
                          eq_refl eq_refl)) _).
  cbn. lia.
Defined.



(** ** Further properties of the converter *)
























(** X7.  With no penalty configured the coefficients are inspected before
    the constraints are validated: a non-integral rhs or row coefficient in
    any constraint, equality or not, puts exactly one warning in the log
    even when [encode] then raises; without one nothing is logged.  With a
    penalty configured nothing is ever logged. *)
Theorem encode_logs_before_validating (σ : state) (op : loc) (src : QuadraticProgram.t) :
  heap σ !! op = Some src →
  ∃ r σ',
    encode op σ = (r, σ')
    ∧ (_penalty (self σ) = None →
       (∃ c, c ∈ QuadraticProgram.linear_constraints src ∧ fractional c) →
       warnings σ' = warnings σ ++ [(msg_float_coefficient, Qc_of_Z 100000)])
    ∧ (_penalty (self σ) = None →
       ¬ (∃ c, c ∈ QuadraticProgram.linear_constraints src ∧ fractional c) →
       warnings σ' = warnings σ)
    ∧ (is_Some (_penalty (self σ)) → warnings σ' = warnings σ).
Proof.
  intros Hop. destruct (encode_state σ op src Hop) as (r & qp & ->).
  eexists _, _. split; [done|]. cbn [warnings]. unfold warnings_after.
  pose proof (has_fractional_term_true src) as Hfrac.
  split; [|split].
  - intros -> Hsome. by rewrite (proj2 Hfrac Hsome).
  - intros -> Hnone. destruct (has_fractional_term src); [|done].
    destruct Hnone. by apply Hfrac.
  - by intros [p ->].
Qed.

Lemma encode_logs_before_validating_witness :
  let src := QuadraticProgram.mk "W" [Var.mk "t" VarType.CONTINUOUS 0 1]
               (Objective.mk 0 ∅ ∅ ObjSense.MINIMIZE)
               [Constraint.mk {[ 0%nat := Q2Qc (1 # 2) ]} ConstraintSense.LE 1]
               QuadraticProgramStatus.VALID in
  heap (start None src) !! 0%nat = Some src
  ∧ ∃ σ', encode 0%nat (start None src) = (inl InvalidConstraintKind, σ')
          ∧ warnings σ' = [(msg_float_coefficient, Qc_of_Z 100000)]%list.
Proof.
  intros src. split; [reflexivity|].
  destruct (encode_logs_before_validating (start None src) 0%nat src eq_refl)
    as (r & σ' & Henc & Hlog & _).
  exists σ'. split.
  - rewrite Henc. f_equal.
    assert ((encode 0%nat (start None src)).1 = inl InvalidConstraintKind) as Hr
      by (by vm_compute).
    rewrite Henc in Hr. exact Hr.
  - apply (Hlog eq_refl).
    exists (Constraint.mk {[ 0%nat := Q2Qc (1 # 2) ]} ConstraintSense.LE 1).
    split; [apply list_elem_of_singleton; reflexivity|].
    right. exists 0%nat, (Q2Qc (1 # 2)). split; reflexivity.
Defined.

(** [decode] reads the state and leaves it alone. *)
Lemma src_object_state (σ : state) : (src_object σ).2 = σ.
Proof.
  unfold src_object. run. destruct (_src (self σ)) as [l|]; [|done].
  unfold deref. by destruct (heap σ !! l).
Qed.

Lemma for_loop_state {A B} (body : B → A → M B) (l : list A) :
  (∀ acc a σ, (body acc a σ).2 = σ) →
  ∀ acc σ, (for_loop l acc body σ).2 = σ.
Proof.
  intros Hbody. induction l as [|a l IH]; intros acc σ; cbn [for_loop]; [done|].
  run. specialize (Hbody acc a σ). destruct (body acc a σ) as [[e|acc'] σ']; cbn in *;
    subst σ'; [done|apply IH].
Qed.

(** X8.  [decode] never changes the state: not the converter's attributes,
    not any problem, not the log, whether it returns or raises and whatever
    the state it is called in. *)
Theorem decode_changes_nothing
    (substitute_variables : QuadraticProgram.t → gmap string Qc → QuadraticProgram.t)
    (σ : state) (result : OptimizationResult.t) :
  (decode substitute_variables result σ).2 = σ.
Proof.
  unfold decode. run. pose proof (src_object_state σ) as Hsrc.
  destruct (src_object σ) as [[e|src] σ']; cbn in Hsrc; subst σ'; [done|].
  destruct (negb _); [done|].
  match goal with
  | |- context [for_loop ?l ?acc ?body σ] =>
      assert ((for_loop l acc body σ).2 = σ) as Hloop;
      [apply for_loop_state; intros d i σ0;
       destruct (QuadraticProgram.variables src !! i), (OptimizationResult.x result !! i);
       reflexivity|];
      destruct (for_loop l acc body σ) as [[e|d] σ']
  end; cbn in Hloop; subst σ'; done.
Qed.

(** X9.  The errors of [decode].  On a converter fresh from its constructor
    there is no retained source and [decode] fails on reading it (Python's
    [AttributeError] on [None]), for every result.  Once [encode] has been
    called, whether it returned or raised, the only error [decode] can raise
    is the dimension error. *)
Theorem decode_errors
    (substitute_variables : QuadraticProgram.t → gmap string Qc → QuadraticProgram.t)
    (σ σ' : state) (op : loc) (src : QuadraticProgram.t) (r : exception + loc) :
  heap σ !! op = Some src →
  encode op σ = (r, σ') →
  (∀ penalty name h w result,
     decode substitute_variables result (mkState (__init__ penalty name) h w)
     = (inl AttributeError, mkState (__init__ penalty name) h w))
  ∧ (∀ result e σ'',
       decode substitute_variables result σ' = (inl e, σ'') → e = DimensionMismatch)
  ∧ (∀ result,
       length (OptimizationResult.x result) = length (QuadraticProgram.variables src) →
       ∃ new_result, decode substitute_variables result σ' = (inr new_result, σ')).
Proof.
  intros Hop Henc. split; [done|].
  destruct (encode_retains_copy σ op src Hop)
    as (r' & σ1 & Henc' & Hsrc & _ & Hcopy & _).
  rewrite Henc in Henc'. injection Henc' as <- <-. split.
  - intros result e σ''. rewrite (decode_run substitute_variables σ' _ src result Hsrc Hcopy).
    unfold decoded. destruct (decide _); [done|]. by intros [= <- _].
  - intros result Hlen.
    rewrite (decode_run substitute_variables σ' _ src result Hsrc Hcopy).
    unfold decoded. rewrite decide_True by done. eauto.
Qed.

Lemma decode_errors_witness :
  let σ := start (Some 2) problem_yz in
  heap σ !! 0%nat = Some problem_yz
  ∧ encode 0%nat σ = ((encode 0%nat σ).1, (encode 0%nat σ).2)
  ∧ ∃ new_result,
      decode substitute_all
        (OptimizationResult.mk [1; 1] 0 OptimizationResultStatus.SUCCESS) (encode 0%nat σ).2
      = (inr new_result, (encode 0%nat σ).2).
Proof.
  intros σ.
  assert (encode 0%nat σ = ((encode 0%nat σ).1, (encode 0%nat σ).2)) as Henc
    by (by destruct (encode 0%nat σ)).
  split; [reflexivity|]. split; [exact Henc|].
  destruct (decode_errors substitute_all σ _ 0%nat problem_yz _ eq_refl Henc)
    as (_ & _ & Hok).
  apply Hok. reflexivity.
Defined.








(** X11.  [decode] answers from the copy taken by [encode]: once [encode]
    has run, whether it returned or raised, replacing any other object (the
    caller's original, the returned destination) changes nothing in what
    [decode] answers. *)
Theorem decode_ignores_later_mutation
    (substitute_variables : QuadraticProgram.t → gmap string Qc → QuadraticProgram.t)
    (σ σ' : state) (op : loc) (src : QuadraticProgram.t) (r : exception + loc)
    (l : loc) (qp' : QuadraticProgram.t) (result : OptimizationResult.t) :
  heap σ !! op = Some src →
  encode op σ = (r, σ') →
  l ≠ length (heap σ) →
  (decode substitute_variables result (caller_mutates l qp' σ')).1
  = (decode substitute_variables result σ').1.
Proof.
  intros Hop Henc Hl.
  destruct (encode_retains_copy σ op src Hop)
    as (r' & σ'' & Henc' & Hsrc & _ & Hcopy & _).
  rewrite Henc in Henc'. injection Henc' as <- <-.
  rewrite (decode_run substitute_variables σ' _ src result Hsrc Hcopy).
  rewrite (decode_run substitute_variables (caller_mutates l qp' σ') (length (heap σ)) src);
    [done|done|].
  unfold caller_mutates; cbn [heap]. by rewrite list_lookup_insert_ne.
Qed.

Lemma decode_ignores_later_mutation_witness :
  let σ := start (Some 2) problem_x in
  let σ' := (encode 0%nat σ).2 in
  let result := OptimizationResult.mk [1]%list 0 OptimizationResultStatus.SUCCESS in
  heap σ !! 0%nat = Some problem_x
  ∧ encode 0%nat σ = ((encode 0%nat σ).1, σ')
  ∧ 0%nat ≠ length (heap σ)
  ∧ (decode substitute_all result (caller_mutates 0%nat problem_free σ')).1
    = (decode substitute_all result σ').1.
Proof.
  intros σ σ' result.
  assert (encode 0%nat σ = ((encode 0%nat σ).1, σ')) as Henc
    by (subst σ'; by destruct (encode 0%nat σ)).
  assert (0%nat ≠ length (heap σ)) as Hl by (cbn; lia).
  split; [reflexivity|]. split; [exact Henc|]. split; [exact Hl|].
  exact (decode_ignores_later_mutation substitute_all σ σ' 0%nat problem_x _ 0%nat
           problem_free result eq_refl Henc Hl).
Defined.

(** X12.  The problem [encode] returns is the very object the converter
    keeps in [_dst], and it is a new one: no object had its reference
    before, it is neither the argument nor the retained copy, and every
    object that existed, an earlier destination included, is as it was. *)
Theorem encode_returns_new_object (σ σ' : state) (op dst : loc) (src : QuadraticProgram.t) :
  heap σ !! op = Some src →
  encode op σ = (inr dst, σ') →
  _dst (self σ') = Some dst
  ∧ heap σ !! dst = None
  ∧ dst ≠ op
  ∧ _src (self σ') ≠ Some dst
  ∧ (∀ l qp, heap σ !! l = Some qp → heap σ' !! l = Some qp).
Proof.
  intros Hop Henc.
  destruct (equalities_or_not (QuadraticProgram.linear_constraints src)) as [Hok|Hne].
  - rewrite (encode_ok σ op src) in Henc by done. injection Henc as <- <-.
    cbn [self heap converter_after _dst _src]. split; [done|].
    split; [apply lookup_ge_None; lia|].
    split; [apply lookup_lt_Some in Hop; lia|].
    split; [intros [=]; lia|].
    intros l qp Hl. by apply lookup_app_l_Some.
  - by rewrite (encode_raise σ op src) in Henc.
Qed.

Lemma encode_returns_new_object_witness :
  let σ := start (Some 2) problem_x in
  heap σ !! 0%nat = Some problem_x
  ∧ encode 0%nat σ = (inr 2%nat, (encode 0%nat σ).2)
  ∧ _dst (self (encode 0%nat σ).2) = Some 2%nat
  ∧ heap σ !! 2%nat = None.
Proof.
  intros σ.
  assert (encode 0%nat σ = (inr 2%nat, (encode 0%nat σ).2)) as Henc by (by vm_compute).
  split; [reflexivity|]. split; [exact Henc|].
  destruct (encode_returns_new_object σ _ 0%nat 2%nat problem_x eq_refl Henc)
    as (Hdst & Hnew & _).
  split; [exact Hdst|exact Hnew].
Defined.

(** X13.  Nothing of an earlier conversion leaks into the next: what
    [encode] answers and the state it leaves depend on the converter only
    through the configured name and penalty, not on what [_src] and [_dst]
    held. *)
Theorem encode_forgets_previous_conversion (σ : state) (op : loc) (src : QuadraticProgram.t)
    (s d : option loc) :
  heap σ !! op = Some src →
  encode op (mkState (mkConverter s d (_dst_name (self σ)) (_penalty (self σ)))
               (heap σ) (warnings σ))
  = encode op σ.
Proof.
  intros Hop. rewrite (encode_run σ op src Hop).
  by rewrite (encode_run (mkState _ (heap σ) (warnings σ)) op src Hop).
Qed.

Lemma encode_forgets_previous_conversion_witness :
  let σ := (encode 0%nat (mkState (__init__ None None) [problem_yz; problem_x] [])).2 in
  heap σ !! 1%nat = Some problem_x
  ∧ encode 1%nat (mkState (__init__ None None) (heap σ) (warnings σ)) = encode 1%nat σ.
Proof.
  intros σ. split; [reflexivity|].
  exact (encode_forgets_previous_conversion σ 1%nat problem_x None None eq_refl).
Defined.










(** X18.  Converting the same problem again gives a second destination of
    the same contents in a new object, and leaves the first one alone. *)
Theorem encode_twice (σ σ1 : state) (op dst1 : loc) (src : QuadraticProgram.t) :
  heap σ !! op = Some src →
  encode op σ = (inr dst1, σ1) →
  ∃ dst2 σ2,
    encode op σ1 = (inr dst2, σ2)
    ∧ dst2 ≠ dst1
    ∧ is_Some (heap σ1 !! dst1)
    ∧ heap σ2 !! dst2 = heap σ1 !! dst1
    ∧ heap σ2 !! dst1 = heap σ1 !! dst1.
Proof.
  intros Hop Henc.
  destruct (equalities_or_not (QuadraticProgram.linear_constraints src)) as [Hok|Hne];
    [|by rewrite (encode_raise σ op src) in Henc].
  rewrite (encode_ok σ op src) in Henc by done. injection Henc as <- <-.
  set (σ1 := mkState (converter_after σ) (heap σ ++ [src; destination (self σ) src])
               (warnings_after (self σ) src (warnings σ))).
  assert (heap σ1 !! op = Some src) as Hop1 by (by apply lookup_app_l_Some).
  assert (heap σ1 !! S (length (heap σ)) = Some (destination (self σ) src)) as Hd1
    by apply heap_lookup_second.
  eexists _, _. split; [by apply encode_ok|]. cbn [heap].
  split; [subst σ1; cbn [heap]; rewrite length_app; cbn; lia|].
  split; [by rewrite Hd1|]. rewrite Hd1. split.
  - by rewrite heap_lookup_second.
  - by apply lookup_app_l_Some.
Qed.

Lemma encode_twice_witness :
  let σ := start None problem_x in
  heap σ !! 0%nat = Some problem_x
  ∧ encode 0%nat σ = (inr 2%nat, (encode 0%nat σ).2)
  ∧ ∃ dst2 σ2,
      encode 0%nat (encode 0%nat σ).2 = (inr dst2, σ2)
      ∧ dst2 ≠ 2%nat
      ∧ heap σ2 !! dst2 = heap (encode 0%nat σ).2 !! 2%nat.
Proof.
  intros σ.
  assert (encode 0%nat σ = (inr 2%nat, (encode 0%nat σ).2)) as Henc by (by vm_compute).
  split; [reflexivity|]. split; [exact Henc|].
  destruct (encode_twice σ _ 0%nat 2%nat problem_x eq_refl Henc)
    as (dst2 & σ2 & Henc2 & Hne & _ & Hsame & _).
  exists dst2, σ2. split; [exact Henc2|]. split; [exact Hne|exact Hsame].
Defined.


